(** * Keycloak admin client: authorization permissions and policies

    A shallow embedding of [lib/authorizations-permissions.js] and of its
    sibling [lib/authorizations-policies.js].  Each exported function is a
    factory that closes over the client handle and returns a function that
    builds one request descriptor, hands it to the [request] primitive and
    settles a promise from the callback.

    The embedding is a state-and-exception monad over a small store:
    the table of promises, the requests in flight together with the
    closures waiting for them, and a log of the observable actions
    (requests handed to the transport, invocations of [resolve] and
    [reject], calls of a bound [find] member). *)

From stdpp Require Import base strings list gmap.
From Stdlib Require Import ZArith.

Local Set Warnings "-register-all".

(** ** JavaScript values

    The functions interpolate [realm], [id], the optional type and id
    arguments and the [type] and [id] members of a record into a template
    literal, and test arguments for truthiness.  The documented argument
    types are strings and JSON records; an omitted argument is [undefined].
    Interpolated values are therefore primitives.  Numbers are left out:
    the only number the modules inspect is the status code of a response,
    kept as an integer on the response itself. *)

Inductive Prim :=
| PUndefined
| PNull
| PBool (b : bool)
| PStr (s : string).

(** A value is a primitive, a record, an array (the list endpoint
    answers with one), an [Error] created with [new Error(message)], or a
    [TypeError] raised by the runtime.  The modules read the members
    [type] and [id] of a record and pass everything else through
    untouched, so a record is kept as a finite map from member names to
    primitives. *)
Inductive Value :=
| VPrim (p : Prim)
| VObj (fields : gmap string Prim)
| VArr (items : list Value)
| VError (message : string)
| VTypeError.

Definition undefined : Value := VPrim PUndefined.
Definition null : Value := VPrim PNull.

(** ToBoolean. *)
Definition truthy_prim (p : Prim) : bool :=
  match p with
  | PUndefined | PNull => false
  | PBool b => b
  | PStr s => negb (String.eqb s EmptyString)
  end.

Definition truthy (v : Value) : bool :=
  match v with
  | VPrim p => truthy_prim p
  | VObj _ | VArr _ | VError _ | VTypeError => true
  end.

(** ToString, as applied by a template literal. *)
Definition to_string (p : Prim) : string :=
  match p with
  | PUndefined => "undefined"
  | PNull => "null"
  | PBool true => "true"
  | PBool false => "false"
  | PStr s => s
  end.

(** ** Client handle, requests and responses *)

Record Client := {
  baseUrl : string;
  token : string
}.

(** Modelled from the spec: [private-map] is not among the sources.  The
    credential holder associates a client handle with its bearer token,
    written once at login and read by every request builder;
    [privates.get(client).accessToken] is that token. *)
Definition privates_get_accessToken (client : Client) : string := token client.

(** The descriptor handed to [request].  [find] sets neither [method] nor
    [body]. *)
Record Request := {
  url : string;
  auth_bearer : string;
  body : option Value;
  method : option string;
  json : bool
}.

(** The [resp] argument of a callback.  Only [statusCode] is read, and
    only after the error argument was found falsy, which is when
    [request] passes a response. *)
Record Response := { statusCode : Z }.

(** ** Promises *)

Definition PromiseId := nat.

(** What [resolve] is called with: a plain value, or another promise
    whose fate the resolved promise then follows. *)
Inductive Resolution :=
| RValue (v : Value)
| RPromise (q : PromiseId).

Inductive PState :=
| Pending
| Fulfilled (v : Value)
| Rejected (e : Value)
| Following (q : PromiseId).

Inductive Kind := Permission | Policy.

(** The closures passed to [request], with the variables each one reads. *)
Inductive Callback :=
| CreateCb (k : Kind) (p : PromiseId)
| FindCb (k : Kind) (p : PromiseId)
| UpdateCb (k : Kind) (p : PromiseId) (client : Client) (realm id : Prim)
    (record : Value)
| RemoveCb (k : Kind) (p : PromiseId).

Inductive Event :=
| EvRequest (req : Request)
| EvResolve (p : PromiseId) (r : Resolution)
| EvReject (p : PromiseId) (e : Value)
| EvFind (k : Kind) (realm id type_ id_ : Prim).

Record State := {
  promises : list PState;
  pending : list (Request * Callback);
  trace : list Event
}.

(** ** The monad: state passing with JavaScript exceptions *)

Inductive Completion (A : Type) :=
| Normal (a : A)
| Abrupt (e : Value).
Arguments Normal {A} a.
Arguments Abrupt {A} e.

Definition M (A : Type) : Type := State → Completion A * State.

Definition ret {A} (a : A) : M A := λ st, (Normal a, st).

Definition bind {A B} (c : M A) (f : A → M B) : M B :=
  λ st, match c st with
        | (Normal a, st') => f a st'
        | (Abrupt e, st') => (Abrupt e, st')
        end.

Definition throw {A} (e : Value) : M A := λ st, (Abrupt e, st).

#[export] Instance M_ret : MRet M := @ret.
#[export] Instance M_bind : MBind M := λ A B f c, bind c f.

Definition log (ev : Event) : M () :=
  λ st, (Normal (),
         {| promises := promises st; pending := pending st;
            trace := trace st ++ [ev] |}).

(** The state a pending promise takes when it is resolved. *)
Definition resolved_state (r : Resolution) : PState :=
  match r with
  | RValue v => Fulfilled v
  | RPromise q => Following q
  end.

(** Only the first resolution or rejection of a promise has an effect. *)
Definition settle (p : PromiseId) (s : PState) : M () :=
  λ st, (Normal (),
         {| promises := match promises st !! p with
                        | Some Pending => <[p := s]> (promises st)
                        | _ => promises st
                        end;
            pending := pending st; trace := trace st |}).

Definition resolve (p : PromiseId) (r : Resolution) : M () :=
  log (EvResolve p r) ;; settle p (resolved_state r).

Definition reject (p : PromiseId) (e : Value) : M () :=
  log (EvReject p e) ;; settle p (Rejected e).

(** [new Promise(executor)]: the executor runs at once; an exception it
    lets escape rejects the promise. *)
Definition new_Promise (executor : PromiseId → M ()) : M PromiseId :=
  λ st,
    let p := length (promises st) in
    let st1 := {| promises := promises st ++ [Pending];
                  pending := pending st; trace := trace st |} in
    match executor p st1 with
    | (Normal _, st2) => (Normal p, st2)
    | (Abrupt e, st2) => (Normal p, (settle p (Rejected e) st2).2)
    end.

(** [request(req, callback)]: the descriptor goes to the transport and
    the closure waits for its outcome. *)
Definition enqueue (req : Request) (cb : Callback) : M () :=
  λ st, (Normal (),
         {| promises := promises st; pending := pending st ++ [(req, cb)];
            trace := trace st |}).

Definition request (req : Request) (cb : Callback) : M () :=
  log (EvRequest req) ;; enqueue req cb.

(** The member [k] of a value that can be read: an own member of a
    record, [undefined] for a member the record lacks and for any member
    of another value (only [type] and [id] are ever read, and neither
    strings, booleans, arrays nor errors have them). *)
Definition read (v : Value) (k : string) : Prim :=
  match v with
  | VObj fields => default PUndefined (fields !! k)
  | _ => PUndefined
  end.

(** Member access [v.k]: reading a member of [undefined] or [null]
    throws. *)
Definition get_prop (v : Value) (k : string) : M Prim :=
  match v with
  | VPrim PUndefined | VPrim PNull => throw VTypeError
  | _ => mret (read v k)
  end.

(** ** lib/authorizations-permissions.js *)

Module Permissions.

Definition create_callback (p : PromiseId)
    (err : Value) (resp : Response) (body : Value) : M () :=
  if truthy err then reject p err
  else if negb (statusCode resp =? 201)%Z then reject p body
  else resolve p (RValue body).

Definition create (client : Client) (realm id : Prim) (permission : Value)
    : M PromiseId :=
  new_Promise (λ p,
    if negb (truthy permission) then
      reject p (VError "permission is missing")
    else
      type_ ← get_prop permission "type";
      let req := {|
        url := baseUrl client +:+ "/admin/realms/" +:+ to_string realm
               +:+ "/clients/" +:+ to_string id
               +:+ "/authz/resource-server/permission/" +:+ to_string type_;
        auth_bearer := privates_get_accessToken client;
        body := Some permission;
        method := Some "POST";
        json := true |} in
      request req (CreateCb Permission p)).

Definition find_callback (p : PromiseId)
    (err : Value) (resp : Response) (body : Value) : M () :=
  if truthy err then reject p err
  else if negb (statusCode resp =? 200)%Z then reject p body
  else resolve p (RValue body).

Definition find (client : Client) (realm id permissionType permissionId : Prim)
    : M PromiseId :=
  new_Promise (λ p,
    let req_url :=
      if truthy_prim permissionId && truthy_prim permissionType then
        baseUrl client +:+ "/admin/realms/" +:+ to_string realm
        +:+ "/clients/" +:+ to_string id
        +:+ "/authz/resource-server/permission/"
        +:+ to_string permissionType +:+ "/" +:+ to_string permissionId
      else
        baseUrl client +:+ "/admin/realms/" +:+ to_string realm
        +:+ "/clients/" +:+ to_string id
        +:+ "/authz/resource-server/permission" in
    let req := {|
      url := req_url;
      auth_bearer := privates_get_accessToken client;
      body := None;
      method := None;
      json := true |} in
    request req (FindCb Permission p)).

(** Modelled from the spec: the code that attaches the modules to the
    client object is not among the sources.  Each function is a two-level
    factory whose outer call binds the client handle, so the member
    [client.clients.authorizations.permissions.find] is [find client].
    The call is logged. *)
Definition client_find (client : Client) (realm id type_ id_ : Prim)
    : M PromiseId :=
  log (EvFind Permission realm id type_ id_) ;;
  find client realm id type_ id_.

Definition update_callback (p : PromiseId) (client : Client)
    (realm id : Prim) (permission : Value)
    (err : Value) (resp : Response) (body : Value) : M () :=
  if truthy err then reject p err
  else if negb (statusCode resp =? 204)%Z then reject p body
  else
    type_ ← get_prop permission "type";
    id_ ← get_prop permission "id";
    q ← client_find client realm id type_ id_;
    resolve p (RPromise q).

Definition update (client : Client) (realm id : Prim) (permission : Value)
    : M PromiseId :=
  new_Promise (λ p,
    if negb (truthy permission) then
      reject p (VError "permission is missing")
    else
      type_ ← get_prop permission "type";
      id_ ← get_prop permission "id";
      let req := {|
        url := baseUrl client +:+ "/admin/realms/" +:+ to_string realm
               +:+ "/clients/" +:+ to_string id
               +:+ "/authz/resource-server/permission/"
               +:+ to_string type_ +:+ "/" +:+ to_string id_;
        auth_bearer := privates_get_accessToken client;
        body := Some permission;
        method := Some "PUT";
        json := true |} in
      request req (UpdateCb Permission p client realm id permission)).

Definition remove_callback (p : PromiseId)
    (err : Value) (resp : Response) (body : Value) : M () :=
  if truthy err then reject p err
  else if negb (statusCode resp =? 204)%Z then reject p body
  else resolve p (RValue undefined).

Definition remove (client : Client) (realm id permissionId : Prim)
    : M PromiseId :=
  new_Promise (λ p,
    if negb (truthy_prim permissionId) then
      reject p (VError "permissionId is missing")
    else
      let req := {|
        url := baseUrl client +:+ "/admin/realms/" +:+ to_string realm
               +:+ "/clients/" +:+ to_string id
               +:+ "/authz/resource-server/permission/"
               +:+ to_string permissionId;
        auth_bearer := privates_get_accessToken client;
        body := None;
        method := Some "DELETE";
        json := true |} in
      request req (RemoveCb Permission p)).

End Permissions.

(** ** lib/authorizations-policies.js *)

Module Policies.

Definition create_callback (p : PromiseId)
    (err : Value) (resp : Response) (body : Value) : M () :=
  if truthy err then reject p err
  else if negb (statusCode resp =? 201)%Z then reject p body
  else resolve p (RValue body).

Definition create (client : Client) (realm id : Prim) (policy : Value)
    : M PromiseId :=
  new_Promise (λ p,
    if negb (truthy policy) then
      reject p (VError "policy is missing")
    else
      type_ ← get_prop policy "type";
      let req := {|
        url := baseUrl client +:+ "/admin/realms/" +:+ to_string realm
               +:+ "/clients/" +:+ to_string id
               +:+ "/authz/resource-server/policy/" +:+ to_string type_;
        auth_bearer := privates_get_accessToken client;
        body := Some policy;
        method := Some "POST";
        json := true |} in
      request req (CreateCb Policy p)).

Definition find_callback (p : PromiseId)
    (err : Value) (resp : Response) (body : Value) : M () :=
  if truthy err then reject p err
  else if negb (statusCode resp =? 200)%Z then reject p body
  else resolve p (RValue body).

Definition find (client : Client) (realm id policyType policyId : Prim)
    : M PromiseId :=
  new_Promise (λ p,
    let req_url :=
      if truthy_prim policyId && truthy_prim policyType then
        baseUrl client +:+ "/admin/realms/" +:+ to_string realm
        +:+ "/clients/" +:+ to_string id
        +:+ "/authz/resource-server/policy/"
        +:+ to_string policyType +:+ "/" +:+ to_string policyId
      else
        baseUrl client +:+ "/admin/realms/" +:+ to_string realm
        +:+ "/clients/" +:+ to_string id
        +:+ "/authz/resource-server/policy" in
    let req := {|
      url := req_url;
      auth_bearer := privates_get_accessToken client;
      body := None;
      method := None;
      json := true |} in
    request req (FindCb Policy p)).

(** Modelled from the spec: the code that attaches the modules to the
    client object is not among the sources.  Each function is a two-level
    factory whose outer call binds the client handle, so the member
    [client.clients.authorizations.policies.find] is [find client].
    The call is logged. *)
Definition client_find (client : Client) (realm id type_ id_ : Prim)
    : M PromiseId :=
  log (EvFind Policy realm id type_ id_) ;;
  find client realm id type_ id_.

Definition update_callback (p : PromiseId) (client : Client)
    (realm id : Prim) (policy : Value)
    (err : Value) (resp : Response) (body : Value) : M () :=
  if truthy err then reject p err
  else if negb (statusCode resp =? 204)%Z then reject p body
  else
    type_ ← get_prop policy "type";
    id_ ← get_prop policy "id";
    q ← client_find client realm id type_ id_;
    resolve p (RPromise q).

Definition update (client : Client) (realm id : Prim) (policy : Value)
    : M PromiseId :=
  new_Promise (λ p,
    if negb (truthy policy) then
      reject p (VError "policy is missing")
    else
      type_ ← get_prop policy "type";
      id_ ← get_prop policy "id";
      let req := {|
        url := baseUrl client +:+ "/admin/realms/" +:+ to_string realm
               +:+ "/clients/" +:+ to_string id
               +:+ "/authz/resource-server/policy/"
               +:+ to_string type_ +:+ "/" +:+ to_string id_;
        auth_bearer := privates_get_accessToken client;
        body := Some policy;
        method := Some "PUT";
        json := true |} in
      request req (UpdateCb Policy p client realm id policy)).

Definition remove_callback (p : PromiseId)
    (err : Value) (resp : Response) (body : Value) : M () :=
  if truthy err then reject p err
  else if negb (statusCode resp =? 204)%Z then reject p body
  else resolve p (RValue undefined).

Definition remove (client : Client) (realm id policyId : Prim)
    : M PromiseId :=
  new_Promise (λ p,
    if negb (truthy_prim policyId) then
      reject p (VError "policyId is missing")
    else
      let req := {|
        url := baseUrl client +:+ "/admin/realms/" +:+ to_string realm
               +:+ "/clients/" +:+ to_string id
               +:+ "/authz/resource-server/policy/"
               +:+ to_string policyId;
        auth_bearer := privates_get_accessToken client;
        body := None;
        method := Some "DELETE";
        json := true |} in
      request req (RemoveCb Policy p)).

End Policies.

(** ** The transport

    [run_callback] enters a waiting closure with the arguments [request]
    passes to it: the error, the response and the parsed body. *)

Definition run_callback (cb : Callback)
    (err : Value) (resp : Response) (body : Value) : M () :=
  match cb with
  | CreateCb Permission p => Permissions.create_callback p err resp body
  | FindCb Permission p => Permissions.find_callback p err resp body
  | UpdateCb Permission p client realm id record =>
      Permissions.update_callback p client realm id record err resp body
  | RemoveCb Permission p => Permissions.remove_callback p err resp body
  | CreateCb Policy p => Policies.create_callback p err resp body
  | FindCb Policy p => Policies.find_callback p err resp body
  | UpdateCb Policy p client realm id record =>
      Policies.update_callback p client realm id record err resp body
  | RemoveCb Policy p => Policies.remove_callback p err resp body
  end.

(** The transport completes the [n]-th request in flight: the request
    leaves the queue and its closure runs.  [None] when there is no such
    request. *)
Definition deliver (n : nat) (err : Value) (resp : Response) (body : Value)
    (st : State) : option (Completion () * State) :=
  match pending st !! n with
  | None => None
  | Some (_, cb) =>
      Some (run_callback cb err resp body
              {| promises := promises st; pending := delete n (pending st);
                 trace := trace st |})
  end.

(** The members of [client.clients.authorizations.permissions] and
    [client.clients.authorizations.policies], by module. *)
Definition create (k : Kind) :=
  match k with Permission => Permissions.create | Policy => Policies.create end.
Definition find (k : Kind) :=
  match k with Permission => Permissions.find | Policy => Policies.find end.
Definition update (k : Kind) :=
  match k with Permission => Permissions.update | Policy => Policies.update end.
Definition remove (k : Kind) :=
  match k with Permission => Permissions.remove | Policy => Policies.remove end.

(** The fate of a promise: its own settlement, or that of the promise it
    follows. *)
Inductive Fate :=
| Unsettled
| FulfilledWith (v : Value)
| RejectedWith (e : Value).

Fixpoint fate_fuel (fuel : nat) (ps : list PState) (p : PromiseId) : Fate :=
  match fuel with
  | O => Unsettled
  | S fuel' =>
      match ps !! p with
      | Some (Fulfilled v) => FulfilledWith v
      | Some (Rejected e) => RejectedWith e
      | Some (Following q) => fate_fuel fuel' ps q
      | Some Pending | None => Unsettled
      end
  end.

Definition fate (st : State) (p : PromiseId) : Fate :=
  fate_fuel (S (length (promises st))) (promises st) p.

(** ** Calls and their completion *)

Inductive Verb := Create | Find | Update | Remove.

(** A call of one member of one module with its arguments. *)
Inductive Call :=
| CallCreate (k : Kind) (client : Client) (realm id : Prim) (record : Value)
| CallFind (k : Kind) (client : Client) (realm id type_ id_ : Prim)
| CallUpdate (k : Kind) (client : Client) (realm id : Prim) (record : Value)
| CallRemove (k : Kind) (client : Client) (realm id record_id : Prim).

Definition invoke (c : Call) : M PromiseId :=
  match c with
  | CallCreate k client realm id record => create k client realm id record
  | CallFind k client realm id type_ id_ => find k client realm id type_ id_
  | CallUpdate k client realm id record => update k client realm id record
  | CallRemove k client realm id record_id =>
      remove k client realm id record_id
  end.

Definition verb_of (c : Call) : Verb :=
  match c with
  | CallCreate _ _ _ _ _ => Create
  | CallFind _ _ _ _ _ _ => Find
  | CallUpdate _ _ _ _ _ => Update
  | CallRemove _ _ _ _ _ => Remove
  end.

(** The argument a call requires is truthy ([find] requires none). *)
Definition required_present (c : Call) : bool :=
  match c with
  | CallCreate _ _ _ _ record | CallUpdate _ _ _ _ record => truthy record
  | CallFind _ _ _ _ _ _ => true
  | CallRemove _ _ _ _ record_id => truthy_prim record_id
  end.

(** Run a call, then let the transport complete the request the call
    put in flight, with the given callback arguments.  [None] when the
    call put no request in flight or an exception escaped. *)
Definition complete (op : M PromiseId)
    (err : Value) (resp : Response) (body : Value) (st : State)
    : option (PromiseId * State) :=
  match op st with
  | (Normal p, st1) =>
      match deliver (length (pending st)) err resp body st1 with
      | Some (Normal _, st2) => Some (p, st2)
      | _ => None
      end
  | (Abrupt _, _) => None
  end.

(** The callback arguments of one completed request. *)
Definition Outcome : Type := Value * Response * Value.

(** The transport answers, one outcome after the other, the request at
    position [n] of the queue, for as long as there is one. *)
Fixpoint answer (n : nat) (outs : list Outcome) (st : State)
    : Completion () * State :=
  match outs with
  | [] => (Normal (), st)
  | (err, resp, body) :: outs' =>
      match deliver n err resp body st with
      | None => (Normal (), st)
      | Some (Normal _, st') => answer n outs' st'
      | Some (Abrupt e, st') => (Abrupt e, st')
      end
  end.

(** Run a call and let the transport answer every request it puts in
    flight, the re-fetch of an [update] included. *)
Definition run_to_end (op : M PromiseId) (outs : list Outcome) (st : State)
    : Completion PromiseId * State :=
  match op st with
  | (Normal p, st1) =>
      match answer (length (pending st)) outs st1 with
      | (Normal _, st2) => (Normal p, st2)
      | (Abrupt e, st2) => (Abrupt e, st2)
      end
  | (Abrupt e, st1) => (Abrupt e, st1)
  end.

(** The events logged since the trace had [n] entries. *)
Definition events_since (n : nat) (st : State) : list Event :=
  drop n (trace st).

(** Invocations of [resolve] or [reject] on promise [p] in a log. *)
Definition settles (p : PromiseId) (ev : Event) : bool :=
  match ev with
  | EvResolve p' _ | EvReject p' _ => Nat.eqb p p'
  | EvRequest _ | EvFind _ _ _ _ _ => false
  end.

Definition settlements (p : PromiseId) (evs : list Event) : list Event :=
  List.filter (settles p) evs.

Definition is_find (ev : Event) : bool :=
  match ev with EvFind _ _ _ _ _ => true | _ => false end.

Definition find_calls (evs : list Event) : list Event :=
  List.filter is_find evs.

(** The URLs of the requests a call hands to the transport before it
    returns. *)
Definition requested_urls (op : M PromiseId) (st : State) : list string :=
  omap (λ ev, match ev with EvRequest req => Some (url req) | _ => None end)
       (events_since (length (trace st)) (op st).2).

(** ** The pattern of the specification

    The wire interface names one URL pattern,
    [{baseUrl}/admin/realms/{realm}/clients/{clientId}/authz/resource-server/{resource-type}[/{subType}][/{id}]],
    and one success code per verb. *)

Definition resource_type (k : Kind) : string :=
  match k with Permission => "permission" | Policy => "policy" end.

Definition optional_segment (o : option string) (rest : string) : string :=
  match o with
  | Some s => "/" +:+ s +:+ rest
  | None => rest
  end.

Definition resource_url (client : Client) (realm clientId : string)
    (k : Kind) (subType id_ : option string) : string :=
  baseUrl client +:+ "/admin/realms/" +:+ realm +:+ "/clients/" +:+ clientId
  +:+ "/authz/resource-server/" +:+ resource_type k
  +:+ optional_segment subType (optional_segment id_ EmptyString).

Definition success_code (v : Verb) : Z :=
  match v with
  | Create => 201
  | Find => 200
  | Update | Remove => 204
  end.

(** Name of the required argument in the missing-argument message. *)
Definition argument_name (k : Kind) (v : Verb) : string :=
  match v with
  | Remove => resource_type k +:+ "Id"
  | _ => resource_type k
  end.

Definition missing_argument (k : Kind) (v : Verb) : Value :=
  VError (argument_name k v +:+ " is missing").

(** ** The wrapper every module instantiates

    The specification describes one pattern: check the required
    argument, build a URL from the path parameters, attach the bearer
    token of the credential holder, issue one call and translate the
    status code.  [Template] writes that pattern once, with the module as
    a parameter that shows only in the resource-type segment, in the
    argument name of the missing-argument message and in the closures
    the module creates. *)

Module Template.
Section Template.
Variable k : Kind.

Definition descriptor (client : Client) (realm id : Prim)
    (subType id_ : option string) (payload : option Value)
    (verb : option string) : Request :=
  {| url := resource_url client (to_string realm) (to_string id) k
              subType id_;
     auth_bearer := privates_get_accessToken client;
     body := payload;
     method := verb;
     json := true |}.

Definition wrapper (v : Verb) (present : bool) (build : M Request)
    (cb : PromiseId → Callback) : M PromiseId :=
  new_Promise (λ p,
    if negb present then reject p (missing_argument k v)
    else req ← build; request req (cb p)).

Definition translate (v : Verb) (p : PromiseId) (on_success : M ())
    (err : Value) (resp : Response) (body : Value) : M () :=
  if truthy err then reject p err
  else if negb (statusCode resp =? success_code v)%Z then reject p body
  else on_success.

Definition create (client : Client) (realm id : Prim) (record : Value) :=
  wrapper Create (truthy record)
    (type_ ← get_prop record "type";
     mret (descriptor client realm id (Some (to_string type_)) None
             (Some record) (Some "POST")))
    (CreateCb k).

Definition find (client : Client) (realm id type_ id_ : Prim) :=
  wrapper Find true
    (mret (if truthy_prim id_ && truthy_prim type_
           then descriptor client realm id (Some (to_string type_))
                  (Some (to_string id_)) None None
           else descriptor client realm id None None None None))
    (FindCb k).

Definition update (client : Client) (realm id : Prim) (record : Value) :=
  wrapper Update (truthy record)
    (type_ ← get_prop record "type";
     id_ ← get_prop record "id";
     mret (descriptor client realm id (Some (to_string type_))
             (Some (to_string id_)) (Some record) (Some "PUT")))
    (λ p, UpdateCb k p client realm id record).

Definition remove (client : Client) (realm id record_id : Prim) :=
  wrapper Remove (truthy_prim record_id)
    (mret (descriptor client realm id None (Some (to_string record_id))
             None (Some "DELETE")))
    (RemoveCb k).

Definition callback (cb : Callback)
    (err : Value) (resp : Response) (body : Value) : M () :=
  match cb with
  | CreateCb _ p =>
      translate Create p (resolve p (RValue body)) err resp body
  | FindCb _ p =>
      translate Find p (resolve p (RValue body)) err resp body
  | UpdateCb _ p client realm id record =>
      translate Update p
        (type_ ← get_prop record "type";
         id_ ← get_prop record "id";
         log (EvFind k realm id type_ id_) ;;
         q ← find client realm id type_ id_;
         resolve p (RPromise q))
        err resp body
  | RemoveCb _ p =>
      translate Remove p (resolve p (RValue undefined)) err resp body
  end.
End Template.
End Template.

(** The module a closure belongs to. *)
Definition kind_of (cb : Callback) : Kind :=
  match cb with
  | CreateCb k _ | FindCb k _ | UpdateCb k _ _ _ _ _ | RemoveCb k _ => k
  end.

(** ** Settlement by status code *)

(** What [resolve] is called with when the status is the success code:
    the body for [create] and [find], the promise of the re-fetch for
    [update], nothing for [remove]. *)
Definition success_resolution (v : Verb) (p : PromiseId) (body : Value)
    : Resolution :=
  match v with
  | Create | Find => RValue body
  | Update => RPromise (S p)
  | Remove => RValue undefined
  end.

(** The rule as the specification words it: when the call completes, the
    promise is resolved with the response body if the status is the
    success code of the verb and rejected with the body otherwise. *)
Definition body_by_status (c : Call) (resp : Response) (body : Value)
    (st : State) : Prop :=
  ∃ p st2,
    complete (invoke c) null resp body st = Some (p, st2)
    ∧ settlements p (events_since (length (trace st)) st2)
      = [if (statusCode resp =? success_code (verb_of c))%Z
         then EvResolve p (RValue body) else EvReject p body].

(** ** Calls in flight *)

(** The promise a closure settles. *)
Definition promise_of (cb : Callback) : PromiseId :=
  match cb with
  | CreateCb _ p | FindCb _ p | UpdateCb _ p _ _ _ _ | RemoveCb _ p => p
  end.

(** The closure a call hands to [request] when its promise is [p]. *)
Definition closure_of (c : Call) (p : PromiseId) : Callback :=
  match c with
  | CallCreate k _ _ _ _ => CreateCb k p
  | CallFind k _ _ _ _ _ => FindCb k p
  | CallUpdate k client realm id record => UpdateCb k p client realm id record
  | CallRemove k _ _ _ _ => RemoveCb k p
  end.

Definition client_of (c : Call) : Client :=
  match c with
  | CallCreate _ client _ _ _ | CallFind _ client _ _ _ _
  | CallUpdate _ client _ _ _ | CallRemove _ client _ _ _ => client
  end.

(** The state a callback of verb [v] gives its promise, when the next
    free promise id is [q]. *)
Definition verdict (v : Verb) (err : Value) (resp : Response) (body : Value)
    (q : PromiseId) : PState :=
  if truthy err then Rejected err
  else if negb (statusCode resp =? success_code v)%Z then Rejected body
  else match v with
       | Create | Find => Fulfilled body
       | Update => Following q
       | Remove => Fulfilled undefined
       end.

(** The slot a callback adds to the promise table: the promise of the
    re-fetch, when its own promise is made to follow one. *)
Definition refetch_slot (s : PState) : list PState :=
  match s with
  | Following _ => [Pending]
  | _ => []
  end.

(** How a promise given that state ends while the re-fetch, if any, is
    unanswered. *)
Definition verdict_fate (v : Verb) (err : Value) (resp : Response)
    (body : Value) : Fate :=
  match verdict v err resp body 0 with
  | Fulfilled x => FulfilledWith x
  | Rejected e => RejectedWith e
  | Pending | Following _ => Unsettled
  end.

(** The descriptors of the requests in a log. *)
Definition requests (evs : list Event) : list Request :=
  omap (λ ev, match ev with EvRequest req => Some req | _ => None end) evs.

(** The call is an [update] whose own request is answered with 204 and no
    transport error, the one case in which a second request follows. *)
Definition refetches (c : Call) (o : Outcome) : bool :=
  match c, o with
  | CallUpdate _ _ _ _ _, (err, resp, _) =>
      negb (truthy err) && (statusCode resp =? 204)%Z
  | _, _ => false
  end.

(** * Verification *)

(** ** Lists grown at the end

    Promise ids and queue positions are indices into lists that only
    grow at the end; these equations read and write the slot that was
    added last. *)

Lemma append_empty_r (s : string) : s +:+ EmptyString = s.
Proof.
  induction s as [|a s IH]; [reflexivity |].
  change (String a (s +:+ EmptyString) = String a s). by rewrite IH.
Qed.

Section ListAtEnd.
Context {A : Type}.
Implicit Types (l r : list A) (x y : A).

Lemma lookup_at_end l x r : (l ++ x :: r) !! length l = Some x.
Proof. by apply list_lookup_middle. Qed.

Lemma lookup_after_end l x r : (l ++ x :: r) !! S (length l) = r !! 0.
Proof.
  rewrite lookup_app_r by lia.
  by replace (S (length l) - length l) with 1 by lia.
Qed.

Lemma lookup_past_end l : l !! length l = None.
Proof. by apply lookup_ge_None. Qed.

Lemma insert_at_end l x y r :
  <[length l := y]> (l ++ x :: r) = l ++ y :: r.
Proof. rewrite insert_app_r_alt by lia. by rewrite Nat.sub_diag. Qed.

Lemma insert_after_end l x y r :
  <[S (length l) := y]> (l ++ x :: r) = l ++ x :: <[0 := y]> r.
Proof.
  rewrite insert_app_r_alt by lia.
  by replace (S (length l) - length l) with 1 by lia.
Qed.

Lemma delete_at_end l x r : delete (length l) (l ++ x :: r) = l ++ r.
Proof. apply delete_middle. Qed.

Lemma length_snoc l x : length (l ++ [x]) = S (length l).
Proof. rewrite length_app. simpl. lia. Qed.

Lemma drop_prefix l r : drop (length l) (l ++ r) = r.
Proof. by rewrite drop_app_length. Qed.
End ListAtEnd.

Lemma eqb_next (n : nat) : Nat.eqb n (S n) = false.
Proof. apply Nat.eqb_neq. lia. Qed.

Create Rewrite HintDb at_end.
#[export] Hint Rewrite
  @lookup_at_end @lookup_after_end @lookup_past_end @insert_at_end
  @insert_after_end @delete_at_end @length_snoc @drop_prefix
  @app_nil_r Nat.eqb_refl eqb_next : at_end.
#[export] Hint Rewrite <- @app_assoc : at_end.

(** After its guard a function reads members of a truthy value only,
    and such a read does not throw. *)
Lemma get_prop_truthy (v : Value) (k : string) :
  truthy v = true → get_prop v k = mret (read v k).
Proof. destruct v as [[| |b|s]| | | |]; simpl; intros H; done. Qed.

(** Symbolic execution of the monadic code on a store whose lists are
    open at the front. *)
Ltac unfold_ops :=
  unfold complete, run_to_end, requested_urls, invoke, deliver,
    run_callback,
    create, find, update, remove,
    Permissions.create, Permissions.find, Permissions.update,
    Permissions.remove, Permissions.create_callback,
    Permissions.find_callback, Permissions.update_callback,
    Permissions.remove_callback, Permissions.client_find,
    Policies.create, Policies.find, Policies.update,
    Policies.remove, Policies.create_callback,
    Policies.find_callback, Policies.update_callback,
    Policies.remove_callback, Policies.client_find,
    new_Promise, request, enqueue, resolve, reject, log, settle,
    throw, mbind, M_bind, bind, mret, M_ret, ret,
    events_since, settlements, find_calls,
    Template.create, Template.find, Template.update, Template.remove,
    Template.callback, Template.wrapper, Template.translate,
    Template.descriptor in *.

Ltac exec :=
  repeat (progress (unfold_ops; simpl; autorewrite with at_end; simpl)).

(** The same, for a call whose required argument [H] states is truthy
    (or falsy). *)
Ltac exec_with H :=
  unfold_ops; simpl; try rewrite H; simpl;
  repeat (progress (try rewrite !(get_prop_truthy _ _ H);
                    unfold_ops; simpl; autorewrite with at_end; simpl)).

(** URLs built by the pattern, with their segments laid out. *)
Ltac urls :=
  unfold resource_url, optional_segment, resource_type;
  rewrite ?append_empty_r.

(** The fate of the promise in the slot added last, and of one that
    follows it. *)
Lemma fate_at_end (ps : list PState) (s : PState) (r : list PState)
    (pd : list (Request * Callback)) (tr : list Event) :
  fate {| promises := ps ++ s :: r; pending := pd; trace := tr |} (length ps)
  = match s with
    | Pending => Unsettled
    | Fulfilled v => FulfilledWith v
    | Rejected e => RejectedWith e
    | Following q =>
        fate_fuel (length (ps ++ s :: r)) (ps ++ s :: r) q
    end.
Proof.
  unfold fate. simpl. rewrite lookup_at_end. by destruct s.
Qed.

Lemma fate_after_end (ps : list PState) (s1 s2 : PState) (r : list PState)
    (pd : list (Request * Callback)) (tr : list Event) :
  (∀ q, s2 ≠ Following q) →
  fate {| promises := ps ++ s1 :: s2 :: r; pending := pd; trace := tr |}
       (S (length ps))
  = match s2 with
    | Fulfilled v => FulfilledWith v
    | Rejected e => RejectedWith e
    | _ => Unsettled
    end.
Proof.
  intros Hs2. unfold fate. simpl. rewrite lookup_after_end. simpl.
  destruct s2; try done. by destruct (Hs2 q).
Qed.

Lemma fate_following_next (ps : list PState) (s2 : PState) (r : list PState)
    (pd : list (Request * Callback)) (tr : list Event) :
  (∀ q, s2 ≠ Following q) →
  fate {| promises := ps ++ Following (S (length ps)) :: s2 :: r;
          pending := pd; trace := tr |} (length ps)
  = fate {| promises := ps ++ Following (S (length ps)) :: s2 :: r;
            pending := pd; trace := tr |} (S (length ps)).
Proof.
  intros Hs2. rewrite fate_at_end, fate_after_end by done.
  rewrite length_app. simpl. rewrite Nat.add_succ_r. simpl.
  rewrite lookup_after_end. simpl.
  destruct s2; try done. by destruct (Hs2 q).
Qed.



(** ** Concrete calls

    A client of the test server, an empty store, and what the functions
    do on them. *)

Example create_posts_to_the_type_collection :
  let client := {| baseUrl := "http://127.0.0.1:8080/auth"; token := "t" |} in
  let record := VObj {[ "type" := PStr "scope"; "name" := PStr "p" ]} in
  create Permission client (PStr "master") (PStr "c1") record
    {| promises := []; pending := []; trace := [] |}
  = let req :=
      {| url := "http://127.0.0.1:8080/auth/admin/realms/master/clients/c1/authz/resource-server/permission/scope";
         auth_bearer := "t"; body := Some record; method := Some "POST";
         json := true |} in
    (Normal 0,
     {| promises := [Pending];
        pending := [(req, CreateCb Permission 0)];
        trace := [EvRequest req] |}).
Proof. reflexivity. Qed.

Example update_of_an_empty_record :
  let client := {| baseUrl := "http://127.0.0.1:8080/auth"; token := "t" |} in
  requested_urls
    (update Policy client (PStr "master") (PStr "c1") (VObj ∅))
    {| promises := []; pending := []; trace := [] |}
  = ["http://127.0.0.1:8080/auth/admin/realms/master/clients/c1/authz/resource-server/policy/undefined/undefined"].
Proof. reflexivity. Qed.

Example remove_then_404 :
  let client := {| baseUrl := "http://127.0.0.1:8080/auth"; token := "t" |} in
  let body := VObj {[ "error" := PStr "not found" ]} in
  match complete (remove Policy client (PStr "master") (PStr "c1") (PStr "p1"))
          null {| statusCode := 404 |} body
          {| promises := []; pending := []; trace := [] |} with
  | Some (p, st) => fate st p = RejectedWith body ∧ pending st = []
  | None => False
  end.
Proof. by vm_compute. Qed.

Example update_then_refetch_fails :
  let client := {| baseUrl := "http://127.0.0.1:8080/auth"; token := "t" |} in
  let record := VObj {[ "type" := PStr "scope"; "id" := PStr "p1" ]} in
  let gone := VObj {[ "error" := PStr "gone" ]} in
  match run_to_end
          (update Permission client (PStr "master") (PStr "c1") record)
          [(null, {| statusCode := 204 |}, undefined);
           (null, {| statusCode := 404 |}, gone)]
          {| promises := []; pending := []; trace := [] |} with
  | (Normal p, st) =>
      p = 0 ∧ promises st = [Following 1; Rejected gone]
      ∧ fate st p = RejectedWith gone
  | (Abrupt _, _) => False
  end.
Proof. by vm_compute. Qed.

(** ** Missing arguments *)

(** C2.  A [create] or [update] call whose record is absent (or otherwise
    falsy) and a [remove] call whose id is absent (or otherwise falsy)
    reject with the missing-argument [Error] inside the call itself: the
    only event logged is that rejection, no request is built or queued,
    and the promise is rejected when the call returns. *)
Theorem missing_argument_rejects_before_any_request
    (k : Kind) (client : Client) (realm id : Prim)
    (record : Value) (record_id : Prim) (st : State) :
  truthy record = false →
  truthy_prim record_id = false →
  let p := length (promises st) in
  let rejected (v : Verb) :=
    (Normal p,
     {| promises := promises st ++ [Rejected (missing_argument k v)];
        pending := pending st;
        trace := trace st ++ [EvReject p (missing_argument k v)] |}) in
  create k client realm id record st = rejected Create
  ∧ update k client realm id record st = rejected Update
  ∧ remove k client realm id record_id st = rejected Remove.
Proof.
  intros Hrecord Hid. destruct st as [ps pd tr].
  by destruct k; repeat split; exec; rewrite ?Hrecord, ?Hid; exec.
Qed.

Lemma missing_argument_rejects_witness :
  let client := {| baseUrl := "http://127.0.0.1:8080/auth"; token := "t" |} in
  let st := {| promises := []; pending := []; trace := [] |} in
  let e := VError "permission is missing" in
  truthy undefined = false ∧ truthy_prim PUndefined = false
  ∧ create Permission client (PStr "master") (PStr "c1") undefined st
    = (Normal 0, {| promises := [Rejected e]; pending := [];
                    trace := [EvReject 0 e] |}).
Proof.
  intros client st e. do 2 (split; [reflexivity |]).
  exact (proj1 (missing_argument_rejects_before_any_request
                  Permission client (PStr "master") (PStr "c1")
                  undefined PUndefined st eq_refl eq_refl)).
Defined.

(** ** Update re-fetches *)


(** C1.  An [update] call (of either module) with a record present whose
    request is answered with status 204 makes exactly one call of the bound
    [find] member, with the realm and client id of the update and the
    [type] and [id] of the record; the update promise is resolved with the
    promise [q] that call returned, and once the transport completes the
    request of that [find], the update promise has the fate of [q]. *)
Theorem update_204_refetches_once
    (k : Kind) (client : Client) (realm id : Prim) (record : Value)
    (err : Value) (resp : Response) (body : Value) (st : State) :
  truthy record = true →
  truthy err = false →
  statusCode resp = 204%Z →
  let p := length (promises st) in
  let q := S p in
  let type_ := read record "type" in
  let id_ := read record "id" in
  ∃ (put get : Request) (st2 : State),
    complete (update k client realm id record) err resp body st
      = Some (p, st2)
    ∧ st2 = {| promises := promises st ++ [Following q; Pending];
               pending := pending st ++ [(get, FindCb k q)];
               trace := trace st ++
                 [EvRequest put; EvFind k realm id type_ id_;
                  EvRequest get; EvResolve p (RPromise q)] |}
    ∧ find_calls (events_since (length (trace st)) st2)
      = [EvFind k realm id type_ id_]
    ∧ find k client realm id type_ id_
        {| promises := promises st ++ [Pending];
           pending := pending st;
           trace := trace st ++
             [EvRequest put; EvFind k realm id type_ id_] |}
      = (Normal q,
         {| promises := promises st ++ [Pending; Pending];
            pending := pending st ++ [(get, FindCb k q)];
            trace := trace st ++
              [EvRequest put; EvFind k realm id type_ id_;
               EvRequest get] |})
    ∧ ∀ err' resp' body',
        ∃ st3,
          deliver (length (pending st)) err' resp' body' st2
            = Some (Normal (), st3)
          ∧ fate st3 p = fate st3 q
          ∧ fate st3 q =
              if truthy err' then RejectedWith err'
              else if (statusCode resp' =? 200)%Z then FulfilledWith body'
              else RejectedWith body'.
Proof.
  intros Hrecord Herr Hstatus p q type_ id_. subst p q type_ id_.
  destruct st as [ps pd tr], resp as [code]. simpl in Hstatus. subst code.
  destruct k.
  all: eexists _, _, _; split;
    [exec_with Hrecord; rewrite Herr; exec_with Hrecord; reflexivity |].
  all: split; [reflexivity |].
  all: split; [exec; reflexivity |].
  all: split; [exec; reflexivity |].
  all: intros err' [code'] body'; simpl.
  all: destruct (truthy err') eqn:Herr';
    [| destruct (code' =? 200)%Z eqn:Hcode'].
  all: eexists; (split; [exec; rewrite ?Herr', ?Hcode'; exec; reflexivity |]).
  all: split; [by apply fate_following_next | by rewrite fate_after_end].
Qed.

Lemma update_204_refetches_once_witness :
  let client := {| baseUrl := "http://127.0.0.1:8080/auth"; token := "t" |} in
  let record :=
    VObj {[ "type" := PStr "scope"; "id" := PStr "p1" ]} in
  let st := {| promises := []; pending := []; trace := [] |} in
  truthy record = true ∧ truthy null = false
  ∧ statusCode {| statusCode := 204 |} = 204%Z
  ∧ ∃ put get st2,
      complete (update Policy client (PStr "master") (PStr "c1") record)
        null {| statusCode := 204 |} undefined st = Some (0, st2)
      ∧ trace st2 =
          [EvRequest put;
           EvFind Policy (PStr "master") (PStr "c1") (PStr "scope") (PStr "p1");
           EvRequest get; EvResolve 0 (RPromise 1)].
Proof.
  intros client record st. repeat split.
  destruct (update_204_refetches_once Policy client (PStr "master")
              (PStr "c1") record null {| statusCode := 204 |} undefined st
              eq_refl eq_refl eq_refl)
    as (put & get & st2 & Hrun & Hst2 & _).
  exists put, get, st2. split; [exact Hrun |]. by rewrite Hst2.
Defined.

(** ** Status codes *)

(** C3, as stated, fails: an [update] answered with 204 and an empty
    body resolves with the promise of its re-fetch, not with the body of
    the response.  (A [remove] answered with 204 likewise resolves with
    no value, whatever the body.) *)
Lemma body_by_status_fails_for_update :
  ¬ body_by_status
      (CallUpdate Permission
         {| baseUrl := "http://127.0.0.1:8080/auth"; token := "t" |}
         (PStr "master") (PStr "c1")
         (VObj {[ "type" := PStr "scope"; "id" := PStr "p1" ]}))
      {| statusCode := 204 |} undefined
      {| promises := []; pending := []; trace := [] |}.
Proof.
  intros (p & st2 & Hrun & Hsettled).
  vm_compute in Hrun. injection Hrun as <- <-.
  vm_compute in Hsettled. discriminate Hsettled.
Qed.

(** C3, amended.  When the required argument is present and the call
    completes without a transport error, the promise is settled by one
    invocation: [reject] with the raw body when the status is not the
    success code of the verb (201 create, 200 find, 204 update and
    remove); otherwise [resolve], with the response body for [create] and
    [find], with the promise of the re-fetch for [update], and with no
    value for [remove]. *)
Theorem settlement_by_status
    (c : Call) (err : Value) (resp : Response) (body : Value) (st : State) :
  required_present c = true →
  truthy err = false →
  let p := length (promises st) in
  ∃ st2,
    complete (invoke c) err resp body st = Some (p, st2)
    ∧ settlements p (events_since (length (trace st)) st2)
      = [if (statusCode resp =? success_code (verb_of c))%Z
         then EvResolve p (success_resolution (verb_of c) p body)
         else EvReject p body]
    ∧ fate st2 p
      = if (statusCode resp =? success_code (verb_of c))%Z
        then match verb_of c with
             | Create | Find => FulfilledWith body
             | Update => fate st2 (S p)
             | Remove => FulfilledWith undefined
             end
        else RejectedWith body.
Proof.
  intros Hpresent Herr p. subst p.
  destruct st as [ps pd tr], resp as [code].
  destruct c as [k ? ? ? ?|k ? ? ? ? ?|k ? ? ? ?|k ? ? ? ?], k;
    simpl in Hpresent |- *.
  all: destruct (code =? _)%Z eqn:Hcode.
  all: eexists; split;
    [exec_with Hpresent; rewrite ?Herr, ?Hcode; exec_with Hpresent;
     reflexivity |].
  all: split; [exec; reflexivity |].
  all: try by apply fate_following_next.
  all: by rewrite fate_at_end.
Qed.

Lemma settlement_by_status_witness :
  let client := {| baseUrl := "http://127.0.0.1:8080/auth"; token := "t" |} in
  let c := CallCreate Permission client (PStr "master") (PStr "c1")
             (VObj {[ "type" := PStr "scope" ]}) in
  let st := {| promises := []; pending := []; trace := [] |} in
  let body := VObj {[ "id" := PStr "p1" ]} in
  required_present c = true ∧ truthy null = false
  ∧ ∃ st2,
      complete (invoke c) null {| statusCode := 201 |} body st = Some (0, st2)
      ∧ settlements 0 (events_since 0 st2) = [EvResolve 0 (RValue body)]
      ∧ fate st2 0 = FulfilledWith body.
Proof.
  intros client c st body. repeat split.
  exact (settlement_by_status c null {| statusCode := 201 |} body st
           eq_refl eq_refl).
Defined.

(** ** Remove *)

(** C4.  A [remove] call with an id provided whose request completes
    with status 204 resolves with [undefined]: [resolve] is invoked with
    no value, whatever the response body is. *)
Theorem remove_204_resolves_with_no_value
    (k : Kind) (client : Client) (realm id record_id : Prim)
    (err : Value) (resp : Response) (body : Value) (st : State) :
  truthy_prim record_id = true →
  truthy err = false →
  statusCode resp = 204%Z →
  let p := length (promises st) in
  ∃ req,
    complete (remove k client realm id record_id) err resp body st
    = Some (p, {| promises := promises st ++ [Fulfilled undefined];
                  pending := pending st;
                  trace := trace st ++
                    [EvRequest req; EvResolve p (RValue undefined)] |})
    ∧ fate {| promises := promises st ++ [Fulfilled undefined];
              pending := pending st;
              trace := trace st ++
                [EvRequest req; EvResolve p (RValue undefined)] |} p
      = FulfilledWith undefined.
Proof.
  intros Hid Herr Hstatus p. subst p.
  destruct st as [ps pd tr], resp as [code]. simpl in Hstatus. subst code.
  destruct k; eexists; (split; [| by rewrite fate_at_end]).
  all: exec_with Hid; rewrite Herr; exec; reflexivity.
Qed.

Lemma remove_204_resolves_with_no_value_witness :
  let client := {| baseUrl := "http://127.0.0.1:8080/auth"; token := "t" |} in
  let st := {| promises := []; pending := []; trace := [] |} in
  truthy_prim (PStr "p1") = true ∧ truthy null = false
  ∧ statusCode {| statusCode := 204 |} = 204%Z
  ∧ ∃ req,
      complete (remove Permission client (PStr "master") (PStr "c1")
                  (PStr "p1"))
        null {| statusCode := 204 |} (VPrim (PStr "gone")) st
      = Some (0, {| promises := [Fulfilled undefined]; pending := [];
                    trace := [EvRequest req;
                              EvResolve 0 (RValue undefined)] |}).
Proof.
  intros client st. repeat split.
  destruct (remove_204_resolves_with_no_value Permission client
              (PStr "master") (PStr "c1") (PStr "p1") null
              {| statusCode := 204 |} (VPrim (PStr "gone")) st
              eq_refl eq_refl eq_refl) as (req & Hrun & _).
  by exists req.
Defined.

(** ** Transport failures *)

(** C5.  For every verb of either module, when the request was put in
    flight and the transport reports an error, the promise is rejected
    with that same error value; the call logs its one request and the
    rejection and nothing else, and leaves no request in flight: nothing
    is retried. *)
Theorem transport_error_rejects_unchanged
    (c : Call) (err : Value) (resp : Response) (body : Value) (st : State) :
  required_present c = true →
  truthy err = true →
  let p := length (promises st) in
  ∃ req,
    complete (invoke c) err resp body st
    = Some (p, {| promises := promises st ++ [Rejected err];
                  pending := pending st;
                  trace := trace st ++ [EvRequest req; EvReject p err] |})
    ∧ fate {| promises := promises st ++ [Rejected err];
              pending := pending st;
              trace := trace st ++ [EvRequest req; EvReject p err] |} p
      = RejectedWith err.
Proof.
  intros Hpresent Herr p. subst p. destruct st as [ps pd tr].
  destruct c as [k ? ? ? ?|k ? ? ? ? ?|k ? ? ? ?|k ? ? ? ?], k;
    simpl in Hpresent.
  all: eexists; (split; [| by rewrite fate_at_end]).
  all: exec_with Hpresent; rewrite Herr; exec; reflexivity.
Qed.

Lemma transport_error_rejects_unchanged_witness :
  let client := {| baseUrl := "http://127.0.0.1:8080/auth"; token := "t" |} in
  let c := CallFind Policy client (PStr "master") (PStr "c1")
             PUndefined PUndefined in
  let st := {| promises := []; pending := []; trace := [] |} in
  let err := VError "connect ECONNREFUSED" in
  required_present c = true ∧ truthy err = true
  ∧ ∃ req,
      complete (invoke c) err {| statusCode := 0 |} undefined st
      = Some (0, {| promises := [Rejected err]; pending := [];
                    trace := [EvRequest req; EvReject 0 err] |}).
Proof.
  intros client c st err. repeat split.
  destruct (transport_error_rejects_unchanged c err {| statusCode := 0 |}
              undefined st eq_refl eq_refl) as (req & Hrun & _).
  by exists req.
Defined.

(** ** Request URLs *)

(** C6.  Every request URL is an instance of the pattern
    [{baseUrl}/admin/realms/{realm}/clients/{clientId}/authz/resource-server/{resource-type}[/{subType}][/{id}]]:
    [create] appends the [type] of the record; [find] appends the type
    and the id when both are given and otherwise targets the bare
    collection; [update] appends the [type] and the [id] of the record;
    [remove] appends the id only.  A call whose required argument is
    missing builds no URL. *)
Theorem request_urls_follow_the_pattern
    (k : Kind) (client : Client) (realm id : Prim)
    (record : Value) (type_ id_ record_id : Prim) (st : State) :
  let pattern := resource_url client (to_string realm) (to_string id) k in
  requested_urls (create k client realm id record) st
  = (if truthy record
     then [pattern (Some (to_string (read record "type"))) None]
     else [])
  ∧ requested_urls (find k client realm id type_ id_) st
    = [if truthy_prim id_ && truthy_prim type_
       then pattern (Some (to_string type_)) (Some (to_string id_))
       else pattern None None]
  ∧ requested_urls (update k client realm id record) st
    = (if truthy record
       then [pattern (Some (to_string (read record "type")))
                     (Some (to_string (read record "id")))]
       else [])
  ∧ requested_urls (remove k client realm id record_id) st
    = (if truthy_prim record_id
       then [pattern None (Some (to_string record_id))]
       else []).
Proof.
  intros pattern. subst pattern. destruct st as [ps pd tr].
  unfold resource_url, optional_segment. rewrite !append_empty_r.
  destruct (truthy record) eqn:Hrecord,
           (truthy_prim record_id) eqn:Hid,
           (truthy_prim id_ && truthy_prim type_) eqn:Hpair.
  all: destruct k; repeat split.
  all: exec_with Hrecord; rewrite ?Hid, ?Hpair; exec; reflexivity.
Qed.

(** ** One settlement per call *)

(** C7.  Whatever the arguments and whatever the transport answers
    (error or not, any status code, any body), a call run to its end
    invokes exactly one of [resolve] and [reject] on its promise, in the
    executor or in the callback; no exception escapes, and every request
    the call put in flight has been answered. *)
Theorem every_call_settles_exactly_once
    (c : Call) (o1 o2 : Outcome) (outs : list Outcome) (st : State) :
  let p := length (promises st) in
  ∃ st',
    run_to_end (invoke c) (o1 :: o2 :: outs) st = (Normal p, st')
    ∧ pending st' = pending st
    ∧ length (settlements p (events_since (length (trace st)) st')) = 1.
Proof.
  intros p. subst p. destruct st as [ps pd tr].
  destruct o1 as [[err1 [code1]] body1], o2 as [[err2 [code2]] body2].
  destruct c as [k ? ? ? record|k ? ? ? ? ?|k ? ? ? record|k ? ? ? rid].
  - destruct (truthy record) eqn:Hpresent, (truthy err1) eqn:Herr1,
             (code1 =? 201)%Z eqn:Hcode1.
    all: destruct k; eexists; (split; [| split]).
    all: try (exec_with Hpresent; rewrite ?Herr1, ?Hcode1; exec;
              destruct outs as [|[[? ?] ?] ?]; exec; reflexivity).
    all: exec; reflexivity.
  - destruct (truthy err1) eqn:Herr1, (code1 =? 200)%Z eqn:Hcode1.
    all: destruct k; eexists; (split; [| split]).
    all: try (exec; rewrite ?Herr1, ?Hcode1; exec;
              destruct outs as [|[[? ?] ?] ?]; exec; reflexivity).
    all: exec; reflexivity.
  - destruct (truthy record) eqn:Hpresent, (truthy err1) eqn:Herr1,
             (code1 =? 204)%Z eqn:Hcode1,
             (truthy err2) eqn:Herr2, (code2 =? 200)%Z eqn:Hcode2.
    all: destruct k; eexists; (split; [| split]).
    all: try (exec_with Hpresent; rewrite ?Herr1, ?Hcode1;
              exec_with Hpresent; rewrite ?Herr2, ?Hcode2; exec;
              destruct outs as [|[[? ?] ?] ?]; exec; reflexivity).
    all: exec; reflexivity.
  - destruct (truthy_prim rid) eqn:Hpresent, (truthy err1) eqn:Herr1,
             (code1 =? 204)%Z eqn:Hcode1.
    all: destruct k; eexists; (split; [| split]).
    all: try (exec_with Hpresent; rewrite ?Herr1, ?Hcode1; exec;
              destruct outs as [|[[? ?] ?] ?]; exec; reflexivity).
    all: exec; reflexivity.
Qed.

(** ** The two modules *)

(** C8.  The permissions module and the policies module are the same
    wrapper: every function and every callback of either module acts, on
    every store, as [Template] does at that module, and [Template] refers
    to its module only through the resource-type segment of the URL, the
    argument name of the missing-argument message and the tag of the
    closures it creates. *)
Theorem modules_are_instances_of_one_wrapper
    (k : Kind) (client : Client) (realm id : Prim) (record : Value)
    (type_ id_ record_id : Prim) (cb : Callback)
    (err : Value) (resp : Response) (body : Value) (st : State) :
  create k client realm id record st
  = Template.create k client realm id record st
  ∧ find k client realm id type_ id_ st
    = Template.find k client realm id type_ id_ st
  ∧ update k client realm id record st
    = Template.update k client realm id record st
  ∧ remove k client realm id record_id st
    = Template.remove k client realm id record_id st
  ∧ run_callback cb err resp body st
    = Template.callback (kind_of cb) cb err resp body st.
Proof.
  destruct st as [ps pd tr], resp as [code].
  repeat split.
  - destruct k, (truthy record) eqn:Hrecord; exec_with Hrecord; urls;
      reflexivity.
  - destruct k, (truthy_prim id_ && truthy_prim type_) eqn:Hpair; exec;
      rewrite Hpair; urls; reflexivity.
  - destruct k, (truthy record) eqn:Hrecord; exec_with Hrecord; urls;
      reflexivity.
  - destruct k, (truthy_prim record_id) eqn:Hid; exec_with Hid; urls;
      reflexivity.
  - destruct cb as [k' p|k' p|k' p client' realm' id' record'|k' p], k';
      unfold run_callback, Template.callback, Template.translate, kind_of,
        success_code, Permissions.create_callback, Policies.create_callback,
        Permissions.find_callback, Policies.find_callback,
        Permissions.update_callback, Policies.update_callback,
        Permissions.remove_callback, Policies.remove_callback; simpl.
    all: destruct (truthy err); [reflexivity |].
    all: match goal with
         | |- context [(?c =? ?n)%Z] => destruct (c =? n)%Z
         end; simpl; try reflexivity.
    all: unfold Permissions.client_find, Policies.client_find,
           mbind, M_bind, bind, Permissions.find, Policies.find,
           Template.find, Template.wrapper, new_Promise, Template.descriptor;
         simpl.
    all: destruct (get_prop record' "type" _) as [[ty|e] st1];
           [| reflexivity].
    all: destruct (get_prop record' "id" _) as [[i|e] st2]; [| reflexivity].
    all: destruct (truthy_prim i && truthy_prim ty); urls; reflexivity.
Qed.

(** ** Inputs the functions do not check *)

(** C9.  A [find] call given exactly one of the type and the id (the
    other absent or falsy) is not rejected locally and ignores the value
    it was given: it acts as the call with neither, puts the request for
    the bare collection in flight and settles nothing itself; a 200 answer
    then resolves the promise with the body of that collection request. *)
Theorem find_with_half_a_pair_lists
    (k : Kind) (client : Client) (realm id type_ id_ : Prim)
    (err : Value) (resp : Response) (body : Value) (st : State) :
  xorb (truthy_prim type_) (truthy_prim id_) = true →
  truthy err = false →
  statusCode resp = 200%Z →
  let p := length (promises st) in
  find k client realm id type_ id_ st
  = find k client realm id PUndefined PUndefined st
  ∧ requested_urls (find k client realm id type_ id_) st
    = [resource_url client (to_string realm) (to_string id) k None None]
  ∧ settlements p
      (events_since (length (trace st))
         (find k client realm id type_ id_ st).2) = []
  ∧ ∃ st2,
      complete (find k client realm id type_ id_) err resp body st
      = Some (p, st2)
      ∧ fate st2 p = FulfilledWith body.
Proof.
  intros Hhalf Herr Hstatus p. subst p.
  destruct st as [ps pd tr], resp as [code]. simpl in Hstatus. subst code.
  destruct (truthy_prim type_) eqn:Htype, (truthy_prim id_) eqn:Hid;
    try discriminate Hhalf.
  all: repeat split.
  all: try (destruct k; exec; rewrite ?Htype, ?Hid; exec; urls; reflexivity).
  all: destruct k; eexists;
    (split; [exec; rewrite ?Htype, ?Hid, ?Herr; exec; reflexivity |]).
  all: by rewrite fate_at_end.
Qed.

Lemma find_with_half_a_pair_lists_witness :
  let client := {| baseUrl := "http://127.0.0.1:8080/auth"; token := "t" |} in
  let st := {| promises := []; pending := []; trace := [] |} in
  xorb (truthy_prim PUndefined) (truthy_prim (PStr "p1")) = true
  ∧ truthy null = false
  ∧ statusCode {| statusCode := 200 |} = 200%Z
  ∧ requested_urls
      (find Permission client (PStr "master") (PStr "c1") PUndefined
         (PStr "p1")) st
    = ["http://127.0.0.1:8080/auth/admin/realms/master/clients/c1/authz/resource-server/permission"].
Proof.
  intros client st. do 3 (split; [reflexivity |]).
  exact (proj1 (proj2 (find_with_half_a_pair_lists Permission client
           (PStr "master") (PStr "c1") PUndefined (PStr "p1") null
           {| statusCode := 200 |} (VArr []) st eq_refl eq_refl eq_refl))).
Defined.

(** C10.  A [create] or [update] call whose record is an object is never
    rejected for a missing argument, whichever members the object has:
    the call logs its request and nothing else, and a [type] (or, for
    [update], an [id]) the object lacks shows as the text [undefined] in
    its place in the URL. *)
Theorem record_without_type_or_id_is_sent
    (k : Kind) (client : Client) (realm id : Prim)
    (fields : gmap string Prim) (st : State) :
  let shown (m : string) :=
    match fields !! m with
    | Some v => to_string v
    | None => "undefined"
    end in
  let pattern := resource_url client (to_string realm) (to_string id) k in
  (∃ req,
     events_since (length (trace st))
       (create k client realm id (VObj fields) st).2 = [EvRequest req]
     ∧ url req = pattern (Some (shown "type")) None)
  ∧ (∃ req,
       events_since (length (trace st))
         (update k client realm id (VObj fields) st).2 = [EvRequest req]
       ∧ url req = pattern (Some (shown "type")) (Some (shown "id"))).
Proof.
  intros shown pattern. subst shown pattern. destruct st as [ps pd tr].
  unfold resource_url, optional_segment. rewrite !append_empty_r.
  split; destruct k; eexists; (split; [exec; unfold get_prop; exec;
                                       reflexivity |]).
  all: simpl; by destruct (fields !! "type"), (fields !! "id").
Qed.

(** ** Request descriptors *)

(** X1.  A call whose required argument is present returns with its
    promise pending and exactly one request in flight.  The descriptor
    carries the bearer token of the client and [json: true]; [create]
    sends the record itself as body with POST, [update] with PUT, [remove]
    sends DELETE without a body, and [find] sets neither method nor
    body. *)
Theorem call_puts_one_descriptor_in_flight (c : Call) (st : State) :
  required_present c = true →
  let p := length (promises st) in
  ∃ req,
    invoke c st
    = (Normal p,
       {| promises := promises st ++ [Pending];
          pending := pending st ++ [(req, closure_of c p)];
          trace := trace st ++ [EvRequest req] |})
    ∧ auth_bearer req = token (client_of c)
    ∧ json req = true
    ∧ method req = match verb_of c with
                   | Create => Some "POST"
                   | Find => None
                   | Update => Some "PUT"
                   | Remove => Some "DELETE"
                   end
    ∧ body req = match c with
                 | CallCreate _ _ _ _ record | CallUpdate _ _ _ _ record =>
                     Some record
                 | CallFind _ _ _ _ _ _ | CallRemove _ _ _ _ _ => None
                 end.
Proof.
  intros Hpresent p. subst p. destruct st as [ps pd tr].
  destruct c as [k ? ? ? ?|k ? ? ? ? ?|k ? ? ? ?|k ? ? ? ?], k;
    simpl in Hpresent.
  all: eexists; split; [exec_with Hpresent; reflexivity |].
  all: by repeat split.
Qed.

Lemma call_puts_one_descriptor_in_flight_witness :
  let client := {| baseUrl := "http://127.0.0.1:8080/auth"; token := "t" |} in
  let c := CallRemove Policy client (PStr "master") (PStr "c1") (PStr "p1") in
  let st := {| promises := []; pending := []; trace := [] |} in
  required_present c = true
  ∧ ∃ req,
      invoke c st
      = (Normal 0, {| promises := [Pending];
                      pending := [(req, RemoveCb Policy 0)];
                      trace := [EvRequest req] |})
      ∧ method req = Some "DELETE" ∧ body req = None.
Proof.
  intros client c st. split; [reflexivity |].
  destruct (call_puts_one_descriptor_in_flight c st eq_refl)
    as (req & Hrun & _ & _ & Hmethod & Hbody).
  by exists req.
Defined.



(** X3.  The guard of [create] and [update] tests truthiness only: a
    record that is truthy but not an object (a non-empty string, [true],
    an array, an error) is not rejected; it is sent as the body, to the
    URL whose type (and, for [update], id) segment reads [undefined]. *)
Theorem truthy_non_object_record_is_sent
    (k : Kind) (client : Client) (realm id : Prim) (record : Value)
    (st : State) :
  truthy record = true →
  (∀ fields, record ≠ VObj fields) →
  let pattern := resource_url client (to_string realm) (to_string id) k in
  (∃ req,
     events_since (length (trace st))
       (create k client realm id record st).2 = [EvRequest req]
     ∧ url req = pattern (Some "undefined") None
     ∧ body req = Some record)
  ∧ (∃ req,
       events_since (length (trace st))
         (update k client realm id record st).2 = [EvRequest req]
       ∧ url req = pattern (Some "undefined") (Some "undefined")
       ∧ body req = Some record).
Proof.
  intros Hrecord Hobject pattern. subst pattern. destruct st as [ps pd tr].
  assert (∀ m, read record m = PUndefined) as Hread.
  { intros m. destruct record; try done. by destruct (Hobject fields). }
  split; destruct k; eexists;
    (split; [exec_with Hrecord; rewrite !Hread; reflexivity |]).
  all: split; [simpl; urls; reflexivity | reflexivity].
Qed.

Lemma truthy_non_object_record_is_sent_witness :
  let client := {| baseUrl := "http://127.0.0.1:8080/auth"; token := "t" |} in
  let st := {| promises := []; pending := []; trace := [] |} in
  let record := VPrim (PStr "scope") in
  truthy record = true ∧ (∀ fields, record ≠ VObj fields)
  ∧ ∃ req,
      events_since 0 (create Permission client (PStr "master") (PStr "c1")
                        record st).2 = [EvRequest req]
      ∧ url req = "http://127.0.0.1:8080/auth/admin/realms/master/clients/c1/authz/resource-server/permission/undefined"
      ∧ body req = Some record.
Proof.
  intros client st record. split; [reflexivity |]. split; [done |].
  exact (proj1 (truthy_non_object_record_is_sent Permission client
                  (PStr "master") (PStr "c1") record st eq_refl
                  (λ fields H, eq_ind (VPrim (PStr "scope"))
                     (λ v, match v with VPrim _ => True | _ => False end)
                     I _ H))).
Defined.

(** ** Calls in flight together *)

Lemma settle_slot_other (ps : list PState) (p i : PromiseId) (s : PState) :
  i ≠ p →
  match ps !! p with
  | Some Pending => <[p := s]> ps
  | _ => ps
  end !! i = ps !! i.
Proof.
  intros Hne. destruct (ps !! p) as [[]|]; try done.
  by apply list_lookup_insert_ne.
Qed.

Lemma settles_other (i p : PromiseId) : i ≠ p → Nat.eqb i p = false.
Proof. intros Hne. by apply Nat.eqb_neq. Qed.

(** X4.  Answering a request touches nothing that belongs to another
    call: whatever the store holds and whatever the answer is, the
    closure that runs leaves every promise other than its own as it was,
    invokes neither [resolve] nor [reject] on it, and keeps every other
    request in flight, in order. *)
Theorem answer_leaves_other_calls_alone
    (st st' : State) (n : nat) (req : Request) (cb : Callback)
    (err : Value) (resp : Response) (body : Value)
    (r : Completion ()) (i : PromiseId) :
  pending st !! n = Some (req, cb) →
  deliver n err resp body st = Some (r, st') →
  i ≠ promise_of cb →
  (i < length (promises st) → promises st' !! i = promises st !! i)
  ∧ settlements i (events_since (length (trace st)) st') = []
  ∧ ∃ new, pending st' = delete n (pending st) ++ new.
Proof.
  intros Hreq Hrun Hother. unfold deliver in Hrun. rewrite Hreq in Hrun.
  destruct st as [ps pd tr], resp as [code]. simpl in *.
  injection Hrun as Hrun. revert Hrun.
  destruct cb as [k p|k p|k p client realm id record|k p]; simpl in Hother.
  1: destruct (code =? 201)%Z eqn:Hcode.
  3: destruct (code =? 200)%Z eqn:Hcode.
  5: destruct (code =? 204)%Z eqn:Hcode.
  7: destruct (code =? 204)%Z eqn:Hcode.
  all: destruct k, (truthy err) eqn:Herr.
  all: try destruct record as [[| |b|s]|fields|items|msg|].
  all: exec; rewrite ?Herr, ?Hcode; exec; intros [= <- <-]; simpl.
  all: rewrite ?drop_prefix, ?drop_all; simpl;
    rewrite ?(settles_other _ _ Hother).
  all: split;
    [intros Hi;
     first [done | by apply settle_slot_other | by apply lookup_app_l
           | by rewrite settle_slot_other by done; apply lookup_app_l] |].
  all: split; [reflexivity |].
  all: first [by eexists | by exists []; rewrite app_nil_r].
Qed.

Lemma answer_leaves_other_calls_alone_witness :
  let client := {| baseUrl := "http://127.0.0.1:8080/auth"; token := "t" |} in
  let req := {| url := "u"; auth_bearer := "t"; body := None;
                method := None; json := true |} in
  let st := {| promises := [Pending; Pending];
               pending := [(req, FindCb Policy 0); (req, RemoveCb Policy 1)];
               trace := [EvRequest req; EvRequest req] |} in
  let st' := {| promises := [Pending; Fulfilled undefined];
                pending := [(req, FindCb Policy 0)];
                trace := [EvRequest req; EvRequest req;
                          EvResolve 1 (RValue undefined)] |} in
  pending st !! 1 = Some (req, RemoveCb Policy 1)
  ∧ deliver 1 null {| statusCode := 204 |} undefined st
    = Some (Normal (), st')
  ∧ 0 ≠ promise_of (RemoveCb Policy 1)
  ∧ promises st' !! 0 = promises st !! 0
  ∧ settlements 0 (events_since 2 st') = [].
Proof.
  intros client req st st'. split; [reflexivity |]. split; [reflexivity |].
  split; [done |].
  destruct (answer_leaves_other_calls_alone st st' 1 req (RemoveCb Policy 1)
              null {| statusCode := 204 |} undefined (Normal ()) 0
              eq_refl eq_refl (λ H : 0 = 1, O_S 0 H))
    as (Hslot & Hsettled & _).
  split; [apply Hslot; simpl; lia | exact Hsettled].
Defined.

(** A call with its required argument present, on any store. *)
Lemma invoke_in_flight (c : Call) (st : State) :
  required_present c = true →
  ∃ req,
    invoke c st
    = (Normal (length (promises st)),
       {| promises := promises st ++ [Pending];
          pending :=
            pending st ++ [(req, closure_of c (length (promises st)))];
          trace := trace st ++ [EvRequest req] |}).
Proof.
  intros Hpresent. destruct st as [ps pd tr].
  destruct c as [k ? ? ? ?|k ? ? ? ? ?|k ? ? ? ?|k ? ? ? ?], k;
    simpl in Hpresent.
  all: eexists; exec_with Hpresent; reflexivity.
Qed.

(** The closure of such a call, entered on any store in which its promise
    is still pending. *)
Lemma callback_effect (c : Call) (p : PromiseId)
    (err : Value) (resp : Response) (body : Value)
    (P : list PState) (Q : list (Request * Callback)) (T : list Event) :
  required_present c = true →
  P !! p = Some Pending →
  ∃ Qn evs,
    run_callback (closure_of c p) err resp body
      {| promises := P; pending := Q; trace := T |}
    = (Normal (),
       {| promises :=
            <[p := verdict (verb_of c) err resp body (length P)]>
              (P ++ refetch_slot
                      (verdict (verb_of c) err resp body (length P)));
          pending := Q ++ Qn;
          trace := T ++ evs |}).
Proof.
  intros Hpresent Hpending. destruct resp as [code].
  assert ((P ++ [Pending]) !! p = Some Pending) as Hpending'.
  { rewrite lookup_app_l; [done |]. by eapply lookup_lt_Some. }
  unfold verdict.
  destruct c as [k ? ? ? ?|k ? ? ? ? ?|k ? ? ? ?|k ? ? ? ?];
    simpl in Hpresent |- *.
  1: destruct (code =? 201)%Z eqn:Hcode.
  3: destruct (code =? 200)%Z eqn:Hcode.
  5: destruct (code =? 204)%Z eqn:Hcode.
  7: destruct (code =? 204)%Z eqn:Hcode.
  all: destruct k, (truthy err) eqn:Herr; simpl.
  all: rewrite ?app_nil_r.
  all: exec_with Hpresent; rewrite ?Herr, ?Hcode; exec_with Hpresent.
  all: rewrite ?Hpending, ?Hpending'.
  all: first [exists []; eexists; rewrite app_nil_r; reflexivity
             | eexists [_]; eexists; reflexivity].
Qed.

Lemma delete_after_end {A} (l : list A) (x : A) (r : list A) :
  delete (S (length l)) (l ++ x :: r) = l ++ x :: delete 0 r.
Proof.
  induction l as [|a l IH]; [reflexivity |]. simpl. by rewrite <- IH.
Qed.

Lemma lookup_offset {A} (l r : list A) (k : nat) :
  (l ++ r) !! (length l + k) = r !! k.
Proof.
  rewrite lookup_app_r by lia. f_equal. lia.
Qed.

Lemma deliver_first_new (P : list PState) (pd rest : list (Request * Callback))
    (T : list Event) (req : Request) (cb : Callback)
    (err : Value) (resp : Response) (body : Value) :
  deliver (length pd) err resp body
    {| promises := P; pending := pd ++ (req, cb) :: rest; trace := T |}
  = Some (run_callback cb err resp body
            {| promises := P; pending := pd ++ rest; trace := T |}).
Proof. unfold deliver. simpl. by rewrite lookup_at_end, delete_at_end. Qed.

Lemma deliver_second_new (P : list PState)
    (pd rest : list (Request * Callback)) (T : list Event)
    (x : Request * Callback) (req : Request) (cb : Callback)
    (err : Value) (resp : Response) (body : Value) :
  deliver (S (length pd)) err resp body
    {| promises := P; pending := pd ++ x :: (req, cb) :: rest; trace := T |}
  = Some (run_callback cb err resp body
            {| promises := P; pending := pd ++ x :: rest; trace := T |}).
Proof.
  unfold deliver. simpl. by rewrite lookup_after_end, delete_after_end.
Qed.

(** A verdict either does not depend on the next free promise id and is a
    settlement, or follows that id. *)
Lemma verdict_cases (v : Verb) (err : Value) (resp : Response) (body : Value) :
  (∃ s, (∀ q, verdict v err resp body q = s)
        ∧ refetch_slot s = []
        ∧ match s with
          | Fulfilled _ | Rejected _ => True
          | _ => False
          end)
  ∨ (∀ q, verdict v err resp body q = Following q).
Proof.
  unfold verdict.
  destruct (truthy err); [left; by eexists |].
  destruct (negb _); [left; by eexists |].
  destruct v; first [left; by eexists | by right].
Qed.

Lemma fate_fuel_pending (fuel : nat) (ps : list PState) (q : PromiseId) :
  ps !! q = Some Pending → fate_fuel fuel ps q = Unsettled.
Proof. intros Hq. destruct fuel; [done |]. simpl. by rewrite Hq. Qed.

(** The fate of a promise, from its slot and, when it follows another
    promise that is pending, from that one. *)
Lemma fate_of_slot (st : State) (p : PromiseId) (s : PState) :
  promises st !! p = Some s →
  match s with
  | Following q => promises st !! q = Some Pending
  | _ => True
  end →
  fate st p = match s with
              | Fulfilled v => FulfilledWith v
              | Rejected e => RejectedWith e
              | Pending | Following _ => Unsettled
              end.
Proof.
  intros Hp Hq. unfold fate. simpl. rewrite Hp.
  destruct s; try done. by apply fate_fuel_pending.
Qed.

Lemma answers_commute_core
    (c1 c2 : Call) (err1 err2 : Value) (resp1 resp2 : Response)
    (body1 body2 : Value) (ps : list PState)
    (pd : list (Request * Callback)) (tr : list Event) (r1 r2 : Request) :
  required_present c1 = true →
  required_present c2 = true →
  let p1 := length ps in
  let p2 := S p1 in
  let st2 :=
    {| promises := ps ++ [Pending; Pending];
       pending := pd ++ [(r1, closure_of c1 p1); (r2, closure_of c2 p2)];
       trace := tr |} in
  ∃ stA' stA stB' stB,
    deliver (length pd) err1 resp1 body1 st2 = Some (Normal (), stA')
    ∧ deliver (length pd) err2 resp2 body2 stA' = Some (Normal (), stA)
    ∧ deliver (S (length pd)) err2 resp2 body2 st2 = Some (Normal (), stB')
    ∧ deliver (length pd) err1 resp1 body1 stB' = Some (Normal (), stB)
    ∧ (fate stA p1 = verdict_fate (verb_of c1) err1 resp1 body1
       ∧ fate stB p1 = verdict_fate (verb_of c1) err1 resp1 body1)
    ∧ (fate stA p2 = verdict_fate (verb_of c2) err2 resp2 body2
       ∧ fate stB p2 = verdict_fate (verb_of c2) err2 resp2 body2).
Proof.
  intros Hc1 Hc2 p1 p2 st2. subst p1 p2 st2. unfold verdict_fate.
  (* c1 answered first *)
  destruct (callback_effect c1 (length ps) err1 resp1 body1
              (ps ++ [Pending; Pending])
              (pd ++ [(r2, closure_of c2 (S (length ps)))]) tr Hc1
              (lookup_at_end _ _ _)) as (QA1 & evA1 & HA1).
  rewrite <- !app_assoc in HA1. simpl in HA1. rewrite insert_at_end in HA1.
  match type of HA1 with
  | _ = (_, {| promises := ?P; pending := _; trace := _ |}) =>
      destruct (callback_effect c2 (S (length ps)) err2 resp2 body2
                  P (pd ++ QA1) (tr ++ evA1) Hc2
                  (lookup_after_end _ _ _)) as (QA2 & evA2 & HA2)
  end.
  rewrite <- !app_assoc in HA2. simpl in HA2.
  rewrite insert_after_end in HA2. simpl in HA2.
  (* c2 answered first *)
  destruct (callback_effect c2 (S (length ps)) err2 resp2 body2
              (ps ++ [Pending; Pending])
              (pd ++ [(r1, closure_of c1 (length ps))]) tr Hc2
              (lookup_after_end _ _ _)) as (QB2 & evB2 & HB2).
  rewrite <- !app_assoc in HB2. simpl in HB2.
  rewrite insert_after_end in HB2. simpl in HB2.
  match type of HB2 with
  | _ = (_, {| promises := ?P; pending := _; trace := _ |}) =>
      destruct (callback_effect c1 (length ps) err1 resp1 body1
                  P (pd ++ QB2) (tr ++ evB2) Hc1
                  (lookup_at_end _ _ _)) as (QB1 & evB1 & HB1)
  end.
  rewrite <- !app_assoc in HB1. simpl in HB1. rewrite insert_at_end in HB1.
  eexists _, _, _, _.
  split; [simpl; rewrite deliver_first_new; by rewrite HA1 |].
  split; [rewrite deliver_first_new; by rewrite HA2 |].
  split; [simpl; rewrite deliver_second_new; by rewrite HB2 |].
  split; [rewrite deliver_first_new; by rewrite HB1 |].
  clear HA1 HA2 HB1 HB2.
  destruct (verdict_cases (verb_of c1) err1 resp1 body1)
    as [(s1 & Hv1 & Hslot1 & Hs1)|Hv1];
  destruct (verdict_cases (verb_of c2) err2 resp2 body2)
    as [(s2 & Hv2 & Hslot2 & Hs2)|Hv2].
  all: rewrite ?Hv1, ?Hv2, ?Hslot1, ?Hslot2; simpl.
  all: rewrite ?Hv1, ?Hv2, ?Hslot1, ?Hslot2; simpl.
  all: rewrite ?length_app; simpl; repeat split.
  all: repeat (erewrite fate_of_slot;
               [| simpl;
                  first [apply lookup_at_end
                        | rewrite lookup_after_end; reflexivity]
                | simpl; rewrite ?lookup_offset;
                  first [done | by destruct s1 | by destruct s2]]).
  all: done.
Qed.

(** A call alone in flight, answered. *)
Lemma answered_alone (c : Call) (err : Value) (resp : Response) (body : Value)
    (st : State) :
  required_present c = true →
  ∃ st',
    complete (invoke c) err resp body st = Some (length (promises st), st')
    ∧ fate st' (length (promises st))
      = verdict_fate (verb_of c) err resp body.
Proof.
  intros Hc. destruct st as [ps pd tr]. unfold complete.
  destruct (invoke_in_flight c {| promises := ps; pending := pd;
                                  trace := tr |} Hc) as [r Hrun].
  rewrite Hrun. simpl. rewrite deliver_first_new.
  destruct (callback_effect c (length ps) err resp body (ps ++ [Pending])
              (pd ++ []) (tr ++ [EvRequest r]) Hc (lookup_at_end _ _ _))
    as (Qn & evs & Hcb).
  rewrite Hcb. eexists; split; [reflexivity |].
  rewrite <- !app_assoc. simpl. rewrite insert_at_end. unfold verdict_fate.
  destruct (verdict_cases (verb_of c) err resp body)
    as [(s & Hv & Hslot & Hs)|Hv].
  all: rewrite ?Hv, ?Hslot; simpl.
  all: rewrite ?length_app; simpl.
  all: erewrite fate_of_slot;
    [| simpl; apply lookup_at_end
     | simpl; rewrite ?lookup_offset; first [done | by destruct s]].
  all: done.
Qed.



(** ** Path parameters *)

Lemma truthy_slash_pair (t i : string) :
  truthy_prim (PStr (t +:+ "/" +:+ i)) = true.
Proof. by destruct t. Qed.

(** X6.  Path parameters are interpolated as they are, without escaping:
    a [remove] whose id is the text [t/i] asks for the very URL on which
    [find] looks up the record of type [t] and id [i]. *)
Theorem unescaped_id_addresses_a_pair
    (k : Kind) (client : Client) (realm id : Prim) (t i : string)
    (st : State) :
  truthy_prim (PStr t) = true →
  truthy_prim (PStr i) = true →
  requested_urls (remove k client realm id (PStr (t +:+ "/" +:+ i))) st
  = requested_urls (find k client realm id (PStr t) (PStr i)) st.
Proof.
  intros Ht Hi. destruct st as [ps pd tr].
  pose proof (truthy_slash_pair t i) as Hpair.
  simpl in Hpair, Ht, Hi.
  destruct k; exec; rewrite ?Hpair, ?Ht, ?Hi; exec; reflexivity.
Qed.

Lemma unescaped_id_addresses_a_pair_witness :
  let client := {| baseUrl := "http://127.0.0.1:8080/auth"; token := "t" |} in
  let st := {| promises := []; pending := []; trace := [] |} in
  truthy_prim (PStr "scope") = true ∧ truthy_prim (PStr "p1") = true
  ∧ requested_urls
      (remove Permission client (PStr "master") (PStr "c1")
         (PStr "scope/p1")) st
    = requested_urls
        (find Permission client (PStr "master") (PStr "c1")
           (PStr "scope") (PStr "p1")) st.
Proof.
  intros client st. do 2 (split; [reflexivity |]).
  exact (unescaped_id_addresses_a_pair Permission client (PStr "master")
           (PStr "c1") "scope" "p1" st eq_refl eq_refl).
Defined.

(** ** Requests per call *)

(** X7.  A call run to its end hands the transport no request when its
    required argument is missing, two when it is an [update] answered
    with 204 and no transport error (its own request and the re-fetch),
    and one in every other case: whatever the answers, nothing is sent a
    second time. *)
Theorem requests_per_call
    (c : Call) (o1 o2 : Outcome) (outs : list Outcome) (st : State) :
  ∃ st',
    run_to_end (invoke c) (o1 :: o2 :: outs) st
    = (Normal (length (promises st)), st')
    ∧ length (requests (events_since (length (trace st)) st'))
      = if negb (required_present c) then 0
        else if refetches c o1 then 2 else 1.
Proof.
  destruct st as [ps pd tr].
  destruct o1 as [[err1 [code1]] body1], o2 as [[err2 [code2]] body2].
  destruct c as [k ? ? ? record|k ? ? ? ? ?|k ? ? ? record|k ? ? ? rid];
    unfold refetches, requests.
  - destruct (truthy record) eqn:Hpresent, (truthy err1) eqn:Herr1,
             (code1 =? 201)%Z eqn:Hcode1.
    all: destruct k; eexists; split.
    all: try (exec_with Hpresent; rewrite ?Herr1, ?Hcode1; exec;
              destruct outs as [|[[? ?] ?] ?]; exec; reflexivity).
    all: exec; rewrite ?Hpresent; reflexivity.
  - destruct (truthy err1) eqn:Herr1, (code1 =? 200)%Z eqn:Hcode1.
    all: destruct k; eexists; split.
    all: try (exec; rewrite ?Herr1, ?Hcode1; exec;
              destruct outs as [|[[? ?] ?] ?]; exec; reflexivity).
    all: exec; reflexivity.
  - destruct (truthy record) eqn:Hpresent, (truthy err1) eqn:Herr1,
             (code1 =? 204)%Z eqn:Hcode1,
             (truthy err2) eqn:Herr2, (code2 =? 200)%Z eqn:Hcode2.
    all: destruct k; eexists; split.
    all: try (exec_with Hpresent; rewrite ?Herr1, ?Hcode1;
              exec_with Hpresent; rewrite ?Herr2, ?Hcode2; exec;
              destruct outs as [|[[? ?] ?] ?]; exec; reflexivity).
    all: exec; rewrite ?Hpresent, ?Herr1, ?Hcode1; reflexivity.
  - destruct (truthy_prim rid) eqn:Hpresent, (truthy err1) eqn:Herr1,
             (code1 =? 204)%Z eqn:Hcode1.
    all: destruct k; eexists; split.
    all: try (exec_with Hpresent; rewrite ?Herr1, ?Hcode1; exec;
              destruct outs as [|[[? ?] ?] ?]; exec; reflexivity).
    all: exec; rewrite ?Hpresent; reflexivity.
Qed.
